(** * VideoThumbnail

    A shallow embedding of [src/components/VideoThumbnail.tsx]: the React
    component's seven [useState] flags, its event handlers, the elements its
    JSX returns, and the event loop that drives one mounted instance.

    Conventions.
    - A handler is a computation over the [World] (component state, the
      [videoRef] binding, the observer, the console and the trace of calls
      made to the platform).  State it reads comes from the closure of the
      render that installed it, passed as [cl]; state it writes goes through
      the [set...] actions, which is what the [useState] setters do (every
      setter of this component is called with a constant, never an updater).
    - [handleClick] is an [async] function: it runs up to [await play()],
      and is resumed when the promise settles.  The two halves are
      [handleClick_start] and [handleClick_resume].
    - After every handled event React renders and commits; committing
      (re)binds [videoRef.current] to the <video> element when the render
      contains one, and to [null] otherwise. *)

From Stdlib Require Import ZArith Bool String List DecimalString Lia.
From Stdlib Require DecimalPos DecimalZ.
Import ListNotations.
Local Open Scope string_scope.

(** ** The JavaScript values the component inspects *)

Module JS.

(** The numbers a poster index takes: integral values (both zeros are
    [Int 0]), [NaN] and the two infinities.  Fractional indices are left
    out.  [Int z] stands for a JavaScript number only for the integers a
    double holds exactly with all their neighbours, the safe integers
    ([isSafeInteger] below); what is proved about the digits of an index
    is proved for those. *)
Inductive number : Type :=
| Int (z : Z)
| NaN
| Infinity (negative : bool).

(** [ToBoolean] on a number: [0], [-0] and [NaN] are falsy. *)
Definition truthy (n : number) : bool :=
  match n with
  | Int z => negb (z =? 0)%Z
  | NaN => false
  | Infinity _ => true
  end.

(** [Number.isSafeInteger]: at most [Number.MAX_SAFE_INTEGER] = 2^53 - 1
    in magnitude. *)
Definition isSafeInteger (z : Z) : bool :=
  (Z.abs z <=? 2 ^ 53 - 1)%Z.

(** [ToString] on a number, as a template literal applies it.  On a safe
    integer JavaScript prints the exact decimal digits, as here; beyond
    them it prints the shortest digits that round-trip (and an exponent
    from 10^21 on), which this function does not follow. *)
Definition toString (n : number) : string :=
  match n with
  | Int z => NilZero.string_of_int (Z.to_int z)
  | NaN => "NaN"
  | Infinity false => "Infinity"
  | Infinity true => "-Infinity"
  end.

(** [ToBoolean] on a string-or-null: [null] and the empty string are falsy. *)
Definition truthy_str (o : option string) : bool :=
  match o with
  | Some s => negb (s =? EmptyString)
  | None => false
  end.

(** [!!x] on an object-or-null. *)
Definition notnot {A : Type} (o : option A) : bool :=
  match o with
  | Some _ => true
  | None => false
  end.

End JS.

(** ** Props and state *)

Inductive AspectRatio : Type := AspectVideo | AspectVertical.

(** [VideoThumbnailProps] after the defaults of the parameter list have been
    filled in; [thumbnailIndex] stays optional ([None] is [undefined]). *)
Record VideoThumbnailProps : Type := {
  src : string;
  title : string;
  aspectRatio : AspectRatio;
  className : string;
  isShowreel : bool;
  thumbnailIndex : option JS.number
}.

(** The seven [useState] cells. *)
Record State : Type := {
  isPlaying : bool;
  isFullscreen : bool;
  isInView : bool;
  videoLoaded : bool;
  isLoading : bool;
  hasInteracted : bool;
  thumbnailLoaded : bool
}.

(** Every cell starts at [false]. *)
Definition initialState : State :=
  {| isPlaying := false; isFullscreen := false; isInView := false;
     videoLoaded := false; isLoading := false; hasInteracted := false;
     thumbnailLoaded := false |}.

Definition with_isPlaying (b : bool) (s : State) : State :=
  {| isPlaying := b; isFullscreen := isFullscreen s; isInView := isInView s;
     videoLoaded := videoLoaded s; isLoading := isLoading s;
     hasInteracted := hasInteracted s; thumbnailLoaded := thumbnailLoaded s |}.

Definition with_isFullscreen (b : bool) (s : State) : State :=
  {| isPlaying := isPlaying s; isFullscreen := b; isInView := isInView s;
     videoLoaded := videoLoaded s; isLoading := isLoading s;
     hasInteracted := hasInteracted s; thumbnailLoaded := thumbnailLoaded s |}.

Definition with_isInView (b : bool) (s : State) : State :=
  {| isPlaying := isPlaying s; isFullscreen := isFullscreen s; isInView := b;
     videoLoaded := videoLoaded s; isLoading := isLoading s;
     hasInteracted := hasInteracted s; thumbnailLoaded := thumbnailLoaded s |}.

Definition with_videoLoaded (b : bool) (s : State) : State :=
  {| isPlaying := isPlaying s; isFullscreen := isFullscreen s;
     isInView := isInView s; videoLoaded := b; isLoading := isLoading s;
     hasInteracted := hasInteracted s; thumbnailLoaded := thumbnailLoaded s |}.

Definition with_isLoading (b : bool) (s : State) : State :=
  {| isPlaying := isPlaying s; isFullscreen := isFullscreen s;
     isInView := isInView s; videoLoaded := videoLoaded s; isLoading := b;
     hasInteracted := hasInteracted s; thumbnailLoaded := thumbnailLoaded s |}.

Definition with_hasInteracted (b : bool) (s : State) : State :=
  {| isPlaying := isPlaying s; isFullscreen := isFullscreen s;
     isInView := isInView s; videoLoaded := videoLoaded s;
     isLoading := isLoading s; hasInteracted := b;
     thumbnailLoaded := thumbnailLoaded s |}.

Definition with_thumbnailLoaded (b : bool) (s : State) : State :=
  {| isPlaying := isPlaying s; isFullscreen := isFullscreen s;
     isInView := isInView s; videoLoaded := videoLoaded s;
     isLoading := isLoading s; hasInteracted := hasInteracted s;
     thumbnailLoaded := b |}.

(** ** getThumbnailPath *)

(** [if (thumbnailIndex) return `/thumbnails/${thumbnailIndex}.jpg`; return null].
    The test is JavaScript truthiness of the optional number. *)
Definition getThumbnailPath (p : VideoThumbnailProps) : option string :=
  match thumbnailIndex p with
  | Some i =>
      if JS.truthy i then Some ("/thumbnails/" ++ JS.toString i ++ ".jpg")
      else None
  | None => None
  end.

(** ** The world one instance lives in *)

(** The element [videoRef] points at, once there is one. *)
Inductive HTMLVideoElement : Type := VideoElement.

(** What [document.fullscreenElement] can hold. *)
Inductive Element : Type := ContainerElement | OtherElement.

Inductive LogLevel : Type := LogError | LogWarn.

(** One [console.error] / [console.warn] call with its arguments. *)
Record LogEntry : Type := { level : LogLevel; args : list string }.

(** Calls the component makes on the platform objects it holds.
    [RequestFullscreen] records that the optional call
    [containerRef.current?.requestFullscreen?.()] was evaluated; on a
    platform whose elements have no [requestFullscreen] that evaluation
    calls nothing. *)
Inductive PlatformCall : Type :=
| VideoSetSrc (url : string)
| VideoLoad
| VideoPause
| VideoPlay
| RequestFullscreen
| ExitFullscreen
| ObserverDisconnect.

Record World : Type := {
  st : State;
  videoRef : option HTMLVideoElement;
  observing : bool;
  awaitingPlay : nat;
  console : list LogEntry;
  calls : list PlatformCall;
  innerWidth : Z
}.

Definition with_st (f : State -> State) (w : World) : World :=
  {| st := f (st w); videoRef := videoRef w; observing := observing w;
     awaitingPlay := awaitingPlay w; console := console w; calls := calls w;
     innerWidth := innerWidth w |}.

Definition with_videoRef (r : option HTMLVideoElement) (w : World) : World :=
  {| st := st w; videoRef := r; observing := observing w;
     awaitingPlay := awaitingPlay w; console := console w; calls := calls w;
     innerWidth := innerWidth w |}.

Definition with_observing (b : bool) (w : World) : World :=
  {| st := st w; videoRef := videoRef w; observing := b;
     awaitingPlay := awaitingPlay w; console := console w; calls := calls w;
     innerWidth := innerWidth w |}.

Definition with_awaitingPlay (n : nat) (w : World) : World :=
  {| st := st w; videoRef := videoRef w; observing := observing w;
     awaitingPlay := n; console := console w; calls := calls w;
     innerWidth := innerWidth w |}.

Definition with_console (l : list LogEntry) (w : World) : World :=
  {| st := st w; videoRef := videoRef w; observing := observing w;
     awaitingPlay := awaitingPlay w; console := l; calls := calls w;
     innerWidth := innerWidth w |}.

Definition with_calls (l : list PlatformCall) (w : World) : World :=
  {| st := st w; videoRef := videoRef w; observing := observing w;
     awaitingPlay := awaitingPlay w; console := console w; calls := l;
     innerWidth := innerWidth w |}.

(** ** Handlers as state-passing computations *)

Definition Handler (A : Type) : Type := World -> A * World.

Definition ret {A : Type} (a : A) : Handler A := fun w => (a, w).

Definition bind {A B : Type} (m : Handler A) (k : A -> Handler B) : Handler B :=
  fun w => let (a, w') := m w in k a w'.

Declare Scope handler_scope.
Delimit Scope handler_scope with handler.
Notation "x <- m ;; k" := (bind m (fun x => k))
  (at level 61, m at next level, right associativity) : handler_scope.
Notation "m ;; k" := (bind m (fun _ => k))
  (at level 61, right associativity) : handler_scope.
Local Open Scope handler_scope.

(** The world a handler leaves behind. *)
Definition exec {A : Type} (m : Handler A) (w : World) : World := snd (m w).

Definition modify (f : World -> World) : Handler unit := fun w => (tt, f w).

Definition setIsPlaying (b : bool) : Handler unit := modify (with_st (with_isPlaying b)).
Definition setIsFullscreen (b : bool) : Handler unit := modify (with_st (with_isFullscreen b)).
Definition setIsInView (b : bool) : Handler unit := modify (with_st (with_isInView b)).
Definition setVideoLoaded (b : bool) : Handler unit := modify (with_st (with_videoLoaded b)).
Definition setIsLoading (b : bool) : Handler unit := modify (with_st (with_isLoading b)).
Definition setHasInteracted (b : bool) : Handler unit := modify (with_st (with_hasInteracted b)).
Definition setThumbnailLoaded (b : bool) : Handler unit := modify (with_st (with_thumbnailLoaded b)).

(** [videoRef.current] *)
Definition videoRef_current : Handler (option HTMLVideoElement) :=
  fun w => (videoRef w, w).

Definition call (c : PlatformCall) : Handler unit :=
  modify (fun w => with_calls (calls w ++ [c]) w).

Definition console_error (a : list string) : Handler unit :=
  modify (fun w => with_console (console w ++ [{| level := LogError; args := a |}]) w).

Definition console_warn (a : list string) : Handler unit :=
  modify (fun w => with_console (console w ++ [{| level := LogWarn; args := a |}]) w).

(** [observer.disconnect()] *)
Definition observer_disconnect : Handler unit :=
  call ObserverDisconnect ;; modify (with_observing false).

(** ** The handlers *)

(** The callback given to [IntersectionObserver]. *)
Definition onIntersection (isIntersecting : bool) : Handler unit :=
  if isIntersecting then setIsInView true ;; observer_disconnect
  else ret tt.

Definition loadVideo (p : VideoThumbnailProps) (cl : State) : Handler unit :=
  v <- videoRef_current ;;
  if JS.notnot v && negb (videoLoaded cl)
  then call (VideoSetSrc (src p)) ;; call VideoLoad
  else ret tt.

(** How far a call of the [async] function [handleClick] got: it returned,
    or it is suspended on the promise of [play()]. *)
Inductive Completion : Type := Returned | AwaitingPlay.

(** How the promise of [play()] settles. *)
Inductive PlayOutcome : Type :=
| Resolved
| Rejected (error : string).

(** [handleClick] up to and including the call of [play()]. *)
Definition handleClick_start (p : VideoThumbnailProps) (cl : State)
  : Handler Completion :=
  v <- videoRef_current ;;
  match v with
  | None => ret Returned
  | Some _ =>
      setHasInteracted true ;;
      (if negb (videoLoaded cl) then loadVideo p cl else ret tt) ;;
      if isPlaying cl
      then call VideoPause ;; setIsPlaying false ;; ret Returned
      else setIsLoading true ;; call VideoPlay ;; ret AwaitingPlay
  end.

(** [handleClick] from the settled promise on: the rest of the [try] block,
    or the [catch] block. *)
Definition handleClick_resume (r : PlayOutcome) : Handler unit :=
  match r with
  | Resolved => setIsPlaying true ;; setIsLoading false
  | Rejected error =>
      console_error ["Error playing video:"; error] ;; setIsLoading false
  end.

(** One whole call of [handleClick], nothing else running in between; [r]
    is consulted only when [play()] was called. *)
Definition handleClick (p : VideoThumbnailProps) (cl : State) (r : PlayOutcome)
  : Handler unit :=
  c <- handleClick_start p cl ;;
  match c with
  | Returned => ret tt
  | AwaitingPlay => handleClick_resume r
  end.

(** [containerRef.current] is the always-rendered root <div>, so the
    first [?.] of the source always passes; the second one decides on the
    platform whether [RequestFullscreen] is an actual call. *)
Definition toggleFullscreen (cl : State) : Handler unit :=
  if negb (isFullscreen cl) then call RequestFullscreen
  else call ExitFullscreen.

(** The [fullscreenchange] listener; [fullscreenElement] is
    [document.fullscreenElement] when the event is delivered. *)
Definition handleFullscreenChange (fullscreenElement : option Element)
  : Handler unit :=
  setIsFullscreen (JS.notnot fullscreenElement).

(** <img onLoad> *)
Definition img_onLoad : Handler unit := setThumbnailLoaded true.

(** <img onError>; a [null] path would print as [null]. *)
Definition img_onError (p : VideoThumbnailProps) : Handler unit :=
  console_warn
    ["Thumbnail not found: " ++
     match getThumbnailPath p with Some path => path | None => "null" end] ;;
  setThumbnailLoaded false.

(** The media events the <video> element is given handlers for. *)
Inductive MediaEvent : Type :=
| LoadedData | Play | Pause | Ended | LoadStart | CanPlay | MediaError.

Definition video_on (p : VideoThumbnailProps) (e : MediaEvent) : Handler unit :=
  match e with
  | LoadedData => setVideoLoaded true
  | Play => setIsPlaying true ;; setIsLoading false
  | Pause => setIsPlaying false
  | Ended => setIsPlaying false
  | LoadStart => setIsLoading true
  | CanPlay => setIsLoading false
  | MediaError =>
      setIsLoading false ;; console_error ["Video failed to load:"; src p]
  end.

(** ** What the component renders *)

Inductive ObjectFit : Type := ObjectContain | ObjectCover.
Inductive Opacity : Type := Opacity0 | Opacity100.
Inductive Glyph : Type := SpinnerGlyph | PauseGlyph | PlayGlyph.

(** The children of the root <div>, with the parts of their class names
    that depend on props or state. *)
Inductive Node : Type :=
| Img (url alt : string) (fit : ObjectFit) (opacity : Opacity)
| Video (fit : ObjectFit) (opacity : Opacity) (loop : bool)
| FallbackPanel
| PlayButton (size : string) (pulse hoverTint hiddenUntilHover : bool)
    (glyph : Glyph) (glyphSize : string)
| HoverOverlay
| FullscreenButton (pinned closeIcon : bool)
| TitleBadge (text : string) (pinned : bool).

Record View : Type := {
  aspectClasses : string;
  fullscreenLayout : bool;
  hoverScale : bool;
  extraClasses : string;
  children : list Node
}.

(** [const isMobile = () => window.innerWidth < 768] *)
Definition isMobile (width : Z) : bool := (width <? 768)%Z.

Definition objectFit (s : State) : ObjectFit :=
  if isFullscreen s then ObjectContain else ObjectCover.

Definition playButtonSize (p : VideoThumbnailProps) (s : State) : string :=
  match aspectRatio p with
  | AspectVertical => if isFullscreen s then "w-20 h-20" else "w-12 h-12"
  | AspectVideo => if isFullscreen s then "w-24 h-24" else "w-16 h-16"
  end.

(** The size of the <Pause> and <Play> icons; the loading spinner has a
    fixed size of its own. *)
Definition glyphSize (p : VideoThumbnailProps) (s : State) : string :=
  match aspectRatio p with
  | AspectVertical => if isFullscreen s then "w-8 h-8" else "w-5 h-5"
  | AspectVideo => if isFullscreen s then "w-10 h-10" else "w-6 h-6"
  end.

(** [{cond && (<element/>)}] *)
Definition when (cond : bool) (n : Node) : list Node :=
  if cond then [n] else [].

Definition render (p : VideoThumbnailProps) (mobile : bool) (s : State) : View :=
  let thumbnailPath := getThumbnailPath p in
  {| aspectClasses :=
       match aspectRatio p with
       | AspectVertical => "aspect-[9/16]"
       | AspectVideo => "aspect-video"
       end;
     fullscreenLayout := isFullscreen s;
     hoverScale := negb (isFullscreen s) && negb mobile;
     extraClasses := className p;
     children :=
       when (JS.truthy_str thumbnailPath && isInView s)
         (Img (match thumbnailPath with Some path => path | None => EmptyString end)
              (title p ++ " thumbnail")
              (objectFit s)
              (if isPlaying s && videoLoaded s then Opacity0 else Opacity100))
       ++ when (hasInteracted s)
         (Video (objectFit s)
                (if videoLoaded s && isPlaying s then Opacity100 else Opacity0)
                (isShowreel p))
       ++ when (negb (thumbnailLoaded s) && negb (JS.truthy_str thumbnailPath))
         FallbackPanel
       ++ [PlayButton (playButtonSize p s)
             (isLoading s)
             (negb (isLoading s) && negb mobile)
             (isPlaying s && negb (isLoading s))
             (if isLoading s then SpinnerGlyph
              else if isPlaying s then PauseGlyph else PlayGlyph)
             (if isLoading s then "w-6 h-6" else glyphSize p s)]
       ++ when (negb (isFullscreen s)) HoverOverlay
       ++ [FullscreenButton (isFullscreen s) (isFullscreen s);
           TitleBadge (title p) (isFullscreen s)] |}.

Definition isImg (n : Node) : bool :=
  match n with Img _ _ _ _ => true | _ => false end.
Definition isVideo (n : Node) : bool :=
  match n with Video _ _ _ => true | _ => false end.
Definition isFallbackPanel (n : Node) : bool :=
  match n with FallbackPanel => true | _ => false end.

(** Whether the poster <img>, the <video>, the LOADING panel is among the
    rendered children. *)
Definition hasImg (v : View) : bool := existsb isImg (children v).
Definition hasVideo (v : View) : bool := existsb isVideo (children v).
Definition hasFallbackPanel (v : View) : bool := existsb isFallbackPanel (children v).

(** The render of a world. *)
Definition view (p : VideoThumbnailProps) (w : World) : View :=
  render p (isMobile (innerWidth w)) (st w).

(** ** The event loop of one mounted instance *)

Inductive Event : Type :=
| Click
| PlaySettled (r : PlayOutcome)
| FullscreenButtonClick
| Intersection (isIntersecting : bool)
| ImgLoad
| ImgError
| Media (e : MediaEvent)
| FullscreenChange (fullscreenElement : option Element).

(** An event can be delivered only by something that exists: a settled
    promise by a pending [play()], an observer callback by a connected
    observer, element events by a rendered element.  Clicks and the
    document's [fullscreenchange] are always possible. *)
Definition enabled (p : VideoThumbnailProps) (w : World) (e : Event) : bool :=
  match e with
  | Click | FullscreenButtonClick | FullscreenChange _ => true
  | PlaySettled _ => (0 <? awaitingPlay w)%nat
  | Intersection _ => observing w
  | ImgLoad | ImgError => hasImg (view p w)
  | Media _ => hasVideo (view p w)
  end.

(** The handler an event runs, with the closure [cl] of the current render. *)
Definition dispatch (p : VideoThumbnailProps) (cl : State) (e : Event)
  : Handler unit :=
  match e with
  | Click =>
      c <- handleClick_start p cl ;;
      match c with
      | Returned => ret tt
      | AwaitingPlay => modify (fun w => with_awaitingPlay (S (awaitingPlay w)) w)
      end
  | PlaySettled r =>
      modify (fun w => with_awaitingPlay (pred (awaitingPlay w)) w) ;;
      handleClick_resume r
  | FullscreenButtonClick => toggleFullscreen cl
  | Intersection isIntersecting => onIntersection isIntersecting
  | ImgLoad => img_onLoad
  | ImgError => img_onError p
  | Media e => video_on p e
  | FullscreenChange fullscreenElement => handleFullscreenChange fullscreenElement
  end.

(** Committing a render binds [videoRef.current] to the <video> element if
    the render has one, and leaves it [null] if not. *)
Definition commit (p : VideoThumbnailProps) (w : World) : World :=
  with_videoRef (if hasVideo (view p w) then Some VideoElement else None) w.

(** The ref is as the last commit left it. *)
Definition committed (p : VideoThumbnailProps) (w : World) : Prop :=
  commit p w = w.

Definition step (p : VideoThumbnailProps) (w : World) (e : Event) : World :=
  if enabled p w e then commit p (exec (dispatch p (st w) e) w) else w.

Definition run (p : VideoThumbnailProps) (evs : list Event) (w : World) : World :=
  fold_left (step p) evs w.

(** The instance after its first render and its two mount effects: the
    observer watches the container, the document listener is installed. *)
Definition mount (p : VideoThumbnailProps) (width : Z) : World :=
  commit p
    {| st := initialState; videoRef := None; observing := true;
       awaitingPlay := 0; console := []; calls := []; innerWidth := width |}.

(** The worlds an instance can be in. *)
Inductive reachable (p : VideoThumbnailProps) : World -> Prop :=
| reachable_mount : forall width, reachable p (mount p width)
| reachable_step : forall w e,
    reachable p w -> enabled p w e = true -> reachable p (step p w e).

(** An event list delivers no intersecting observer entry. *)
Definition neverIntersected (evs : list Event) : bool :=
  forallb (fun e => match e with Intersection true => false | _ => true end) evs.

(** ** Readings of traces and event lists *)

(** The calls that touch the <video> element. *)
Definition isVideoCall (c : PlatformCall) : bool :=
  match c with
  | VideoSetSrc _ | VideoLoad | VideoPause | VideoPlay => true
  | RequestFullscreen | ExitFullscreen | ObserverDisconnect => false
  end.

Definition isObserverDisconnect (c : PlatformCall) : bool :=
  match c with ObserverDisconnect => true | _ => false end.

(** How often the observer was told to disconnect. *)
Definition disconnects (w : World) : nat :=
  length (filter isObserverDisconnect (calls w)).

(** What [document.fullscreenElement] was at the last [fullscreenchange]
    of an event list, if it has one. *)
Fixpoint lastFullscreenChange (evs : list Event) : option (option Element) :=
  match evs with
  | [] => None
  | e :: rest =>
      match lastFullscreenChange rest with
      | Some el => Some el
      | None =>
          match e with
          | FullscreenChange el => Some el
          | _ => None
          end
      end
  end.

(** The events whose handlers write to the console. *)
Definition logsToConsole (e : Event) : bool :=
  match e with
  | PlaySettled (Rejected _) | ImgError | Media MediaError => true
  | _ => false
  end.

(** A world in which nothing of the video has happened: no interaction,
    no bound ref, nothing playing, loading or loaded, no pending [play()],
    and no call on a <video> element in the trace. *)
Definition dormant (w : World) : Prop :=
  hasInteracted (st w) = false
  /\ videoRef w = None
  /\ isPlaying (st w) = false
  /\ videoLoaded (st w) = false
  /\ isLoading (st w) = false
  /\ awaitingPlay w = 0
  /\ forallb (fun c => negb (isVideoCall c)) (calls w) = true.

(** ** Sample instances *)

(** A committed world with [hasInteracted] true: the <video> element is
    mounted, the ref is bound, nothing is playing.  It is the starting
    point for exercising the handlers past the guard of [handleClick]; the
    event loop itself never gets there from [mount], as shown below. *)
Definition idleMounted : World :=
  {| st := with_hasInteracted true initialState;
     videoRef := Some VideoElement; observing := false; awaitingPlay := 0;
     console := []; calls := []; innerWidth := 1024 |}.

Definition sampleProps : VideoThumbnailProps :=
  {| src := "/videos/reel.mp4"; title := "Reel"; aspectRatio := AspectVideo;
     className := EmptyString; isShowreel := false; thumbnailIndex := Some (JS.Int 3) |}.

(** The mounted, idle widget after it has scrolled into view. *)
Definition idleInView : World := with_st (with_isInView true) idleMounted.

Definition noPosterProps : VideoThumbnailProps :=
  {| src := "/videos/reel.mp4"; title := "Reel"; aspectRatio := AspectVideo;
     className := EmptyString; isShowreel := false; thumbnailIndex := None |}.

(** A click on the mounted widget, the media loading, [play()] resolving. *)
Definition playbackStarts : list Event :=
  [Click; Media LoadStart; Media LoadedData; Media CanPlay;
   PlaySettled Resolved; Media Play].

(** The widget with poster 3 once it has scrolled into view. *)
Definition posterInView : World := step sampleProps (mount sampleProps 1024) (Intersection true).

(** The mounted widget while it plays a loaded video. *)
Definition playingMounted : World :=
  with_st (fun s => with_isPlaying true (with_videoLoaded true s)) idleMounted.


(** * Properties *)

(** ** What is rendered, in terms of props and state *)

Lemma existsb_when (f : Node -> bool) (c : bool) (n : Node) :
  existsb f (when c n) = c && f n.
Proof. destruct c; cbn; [apply orb_false_r | reflexivity]. Qed.

Lemma hasVideo_render p mobile s :
  hasVideo (render p mobile s) = hasInteracted s.
Proof.
  unfold hasVideo, render; cbn [children].
  rewrite !existsb_app, !existsb_when; cbn.
  now rewrite !andb_false_r, orb_false_r, andb_true_r.
Qed.

Lemma hasImg_render p mobile s :
  hasImg (render p mobile s) = JS.truthy_str (getThumbnailPath p) && isInView s.
Proof.
  unfold hasImg, render; cbn [children].
  rewrite !existsb_app, !existsb_when; cbn.
  now rewrite !andb_false_r, !orb_false_r, andb_true_r.
Qed.

Lemma hasFallbackPanel_render p mobile s :
  hasFallbackPanel (render p mobile s)
  = negb (thumbnailLoaded s) && negb (JS.truthy_str (getThumbnailPath p)).
Proof.
  unfold hasFallbackPanel, render; cbn [children].
  rewrite !existsb_app, !existsb_when; cbn.
  now rewrite !andb_false_r, !orb_false_r, andb_true_r.
Qed.

(** A derived path is never the empty string, so [thumbnailPath && ...]
    tests exactly whether a path was derived. *)
Lemma truthy_thumbnailPath p :
  JS.truthy_str (getThumbnailPath p) = JS.notnot (getThumbnailPath p).
Proof.
  unfold getThumbnailPath.
  destruct (thumbnailIndex p) as [i|]; [|reflexivity].
  destruct (JS.truthy i); reflexivity.
Qed.

Lemma getThumbnailPath_truthy p i :
  thumbnailIndex p = Some i -> JS.truthy i = true ->
  getThumbnailPath p = Some ("/thumbnails/" ++ JS.toString i ++ ".jpg").
Proof. unfold getThumbnailPath; intros -> ->; reflexivity. Qed.

Lemma getThumbnailPath_absent p :
  thumbnailIndex p = None -> getThumbnailPath p = None.
Proof. unfold getThumbnailPath; intros ->; reflexivity. Qed.

(** Opens a world and its state into their fields. *)
Ltac open_world w :=
  let s := fresh "s" in
  destruct w as [s ? ? ? ? ? ?]; destruct s as [? ? ? ? ? ? ?];
  cbn [st videoRef observing awaitingPlay console calls innerWidth
       isPlaying isFullscreen isInView videoLoaded isLoading hasInteracted
       thumbnailLoaded] in *.

(** ** Commit and step *)

Lemma st_commit p w : st (commit p w) = st w.
Proof. reflexivity. Qed.

Lemma videoRef_commit p w :
  videoRef (commit p w) = if hasInteracted (st w) then Some VideoElement else None.
Proof.
  unfold commit, with_videoRef, view; cbn [videoRef].
  now rewrite hasVideo_render.
Qed.

Lemma commit_idempotent p w : committed p (commit p w).
Proof. unfold committed, commit, view; reflexivity. Qed.

Lemma committed_videoRef p w :
  committed p w ->
  videoRef w = if hasInteracted (st w) then Some VideoElement else None.
Proof. intros H; rewrite <- H at 1; apply videoRef_commit. Qed.

Lemma step_committed p w e : committed p w -> committed p (step p w e).
Proof.
  intros H; unfold step.
  destruct (enabled p w e); [apply commit_idempotent | exact H].
Qed.

Lemma run_committed p evs : forall w, committed p w -> committed p (run p evs w).
Proof.
  induction evs as [|e evs IH]; intros w H; cbn; [exact H|].
  apply IH, step_committed, H.
Qed.

Lemma mount_committed p width : committed p (mount p width).
Proof. apply commit_idempotent. Qed.

Lemma reachable_run p evs : forall w, reachable p w -> reachable p (run p evs w).
Proof.
  induction evs as [|e evs IH]; intros w H; cbn; [exact H|].
  apply IH. destruct (enabled p w e) eqn:E.
  - now apply reachable_step.
  - unfold step; rewrite E; exact H.
Qed.

(** ** handleClick *)

(** [play()] is called exactly when the ref is bound and the closure says
    "not playing". *)
Lemma handleClick_start_awaits p cl w :
  fst (handleClick_start p cl w) = AwaitingPlay
  <-> videoRef w <> None /\ isPlaying cl = false.
Proof.
  open_world w.
  destruct cl as [playing ? ? loaded ? ? ?].
  destruct videoRef0 as [v|], loaded, playing; cbv; split; intros;
    intuition congruence.
Qed.

(** Without a bound ref [handleClick] returns at its first line. *)
Lemma handleClick_unbound p cl r w :
  videoRef w = None -> handleClick p cl r w = (tt, w).
Proof.
  intros H. unfold handleClick, handleClick_start, bind, videoRef_current.
  now rewrite H.
Qed.

(** Whatever happened while the promise was pending, a resolved [play()]
    leaves the widget playing and not loading. *)
Lemma handleClick_resume_resolved w :
  isPlaying (st (exec (handleClick_resume Resolved) w)) = true
  /\ isLoading (st (exec (handleClick_resume Resolved) w)) = false.
Proof. split; reflexivity. Qed.

(** In the event loop a click that calls [play()] followed by the promise
    settling, with nothing in between, leaves the state one whole call of
    [handleClick] leaves. *)
Lemma click_then_settled p w r :
  videoRef w <> None -> isPlaying (st w) = false ->
  st (run p [Click; PlaySettled r] w) = st (exec (handleClick p (st w) r) w).
Proof.
  intros Href Hnot. open_world w. subst.
  destruct videoRef0 as [v|]; [|congruence].
  destruct videoLoaded0, r; reflexivity.
Qed.

(** C1. A click handled while the widget is not playing (the ref is bound,
    so the handler gets past its guard) calls [play()]; when that request
    succeeds, the state the handler leaves has [isPlaying] true and
    [isLoading] false. *)
Theorem handleClick_play_granted p w :
  videoRef w <> None ->
  isPlaying (st w) = false ->
  fst (handleClick_start p (st w) w) = AwaitingPlay
  /\ isPlaying (st (exec (handleClick p (st w) Resolved) w)) = true
  /\ isLoading (st (exec (handleClick p (st w) Resolved) w)) = false.
Proof.
  intros Href Hnot. split.
  - apply handleClick_start_awaits; auto.
  - open_world w. subst.
    destruct videoRef0 as [v|]; [|congruence].
    destruct videoLoaded0; split; reflexivity.
Qed.

Lemma handleClick_play_granted_witness :
  fst (handleClick_start sampleProps (st idleMounted) idleMounted) = AwaitingPlay
  /\ isPlaying (st (exec (handleClick sampleProps (st idleMounted) Resolved) idleMounted)) = true
  /\ isLoading (st (exec (handleClick sampleProps (st idleMounted) Resolved) idleMounted)) = false.
Proof.
  apply (handleClick_play_granted sampleProps idleMounted).
  - discriminate.
  - reflexivity.
Defined.

(** C2. A click handled while the widget is not playing whose [play()]
    request is rejected leaves [isPlaying] false and [isLoading] false,
    logs exactly one error, and changes no other state field: the state is
    the old one with [isLoading] cleared. *)
Theorem handleClick_play_rejected p w error :
  committed p w ->
  videoRef w <> None ->
  isPlaying (st w) = false ->
  let w' := exec (handleClick p (st w) (Rejected error)) w in
  isPlaying (st w') = false
  /\ isLoading (st w') = false
  /\ console w' = (console w ++ [{| level := LogError;
                                    args := ["Error playing video:"; error] |}])%list
  /\ st w' = with_isLoading false (st w).
Proof.
  intros Hc Href Hnot.
  pose proof (committed_videoRef p w Hc) as Hv.
  destruct (hasInteracted (st w)) eqn:Hi; [|congruence].
  open_world w. subst.
  destruct videoLoaded0; cbv; auto.
Qed.

Lemma handleClick_play_rejected_witness :
  let w' := exec (handleClick sampleProps (st idleMounted) (Rejected "NotAllowedError")) idleMounted in
  isPlaying (st w') = false
  /\ isLoading (st w') = false
  /\ console w' = (console idleMounted ++ [{| level := LogError;
                      args := ["Error playing video:"; "NotAllowedError"] |}])%list
  /\ st w' = with_isLoading false (st idleMounted).
Proof.
  apply (handleClick_play_rejected sampleProps idleMounted "NotAllowedError").
  - reflexivity.
  - discriminate.
  - reflexivity.
Defined.

(** ** The <video> element and the first click *)

(** C3. In every state (so in every reachable one) the render contains the
    <video> element exactly when [hasInteracted] is true: with the flag
    false the element is absent, and where the element is present the flag
    is true. *)
Theorem video_element_iff_hasInteracted p mobile s :
  (hasInteracted s = false -> hasVideo (render p mobile s) = false)
  /\ (hasVideo (render p mobile s) = true -> hasInteracted s = true).
Proof. rewrite hasVideo_render; split; intros H; exact H. Qed.

Lemma video_element_iff_hasInteracted_witness :
  hasVideo (render sampleProps false initialState) = false
  /\ hasInteracted (st idleMounted) = true.
Proof.
  destruct (video_element_iff_hasInteracted sampleProps false initialState)
    as [Habsent _].
  destruct (video_element_iff_hasInteracted sampleProps false (st idleMounted))
    as [_ Hpresent].
  split; [apply Habsent | apply Hpresent]; reflexivity.
Defined.

(** No handler but [handleClick] writes [hasInteracted], and [handleClick]
    writes it only past its guard on the ref. *)
Lemma dispatch_hasInteracted p cl e w :
  videoRef w = None ->
  hasInteracted (st (exec (dispatch p cl e) w)) = hasInteracted (st w).
Proof.
  intros Href. open_world w. subst.
  destruct e as [ | [|err] | | [|] | | | [] | fe]; try reflexivity.
  unfold dispatch, toggleFullscreen.
  destruct (isFullscreen cl); reflexivity.
Qed.

Lemma step_keeps_uninteracted p w e :
  committed p w -> hasInteracted (st w) = false ->
  hasInteracted (st (step p w e)) = false.
Proof.
  intros Hc Hi. unfold step.
  destruct (enabled p w e); [|exact Hi].
  rewrite st_commit, dispatch_hasInteracted; [exact Hi|].
  rewrite (committed_videoRef p w Hc), Hi. reflexivity.
Qed.

Lemma reachable_committed p w : reachable p w -> committed p w.
Proof.
  induction 1 as [width | w e _ IH _];
    [apply mount_committed | apply step_committed, IH].
Qed.

Lemma run_keeps_uninteracted p evs :
  forall w, committed p w -> hasInteracted (st w) = false ->
            hasInteracted (st (run p evs w)) = false.
Proof.
  induction evs as [|e evs IH]; intros w Hc Hi; cbn; [exact Hi|].
  apply IH; [apply step_committed, Hc | apply step_keeps_uninteracted; assumption].
Qed.

(** C4. With the ref unset [handleClick] returns at once, leaving every
    state field (and the rest of the world) as it was.  The ref is unset
    in every reachable world, the one of the first click included, because
    [hasInteracted] is false there and the <video> is rendered only when it
    is true.  So from any committed world with [hasInteracted] false, no
    sequence of events, clicks included, makes [hasInteracted] true. *)
Theorem click_never_sets_hasInteracted p :
  (forall cl r w, videoRef w = None -> handleClick p cl r w = (tt, w))
  /\ (forall w, reachable p w ->
                videoRef w = None /\ hasInteracted (st w) = false)
  /\ (forall w evs, committed p w -> hasInteracted (st w) = false ->
                    hasInteracted (st (run p evs w)) = false).
Proof.
  split; [|split].
  - intros cl r w; apply handleClick_unbound.
  - intros w Hr.
    assert (Hi : hasInteracted (st w) = false).
    { induction Hr as [width | w e Hr IH _]; [reflexivity|].
      apply step_keeps_uninteracted; [apply reachable_committed, Hr | exact IH]. }
    split; [|exact Hi].
    rewrite (committed_videoRef p w (reachable_committed p w Hr)), Hi.
    reflexivity.
  - intros w evs; apply run_keeps_uninteracted.
Qed.

Lemma click_never_sets_hasInteracted_witness :
  handleClick sampleProps (st (mount sampleProps 1024)) Resolved (mount sampleProps 1024)
    = (tt, mount sampleProps 1024)
  /\ videoRef (step sampleProps (mount sampleProps 1024) Click) = None
  /\ hasInteracted (st (run sampleProps [Click; Intersection true; Click; Click]
                          (mount sampleProps 1024))) = false.
Proof.
  destruct (click_never_sets_hasInteracted sampleProps) as [H1 [H2 H3]].
  split; [|split].
  - apply H1. reflexivity.
  - apply H2. apply reachable_step; [apply reachable_mount | reflexivity].
  - apply H3; reflexivity.
Defined.

(** ** The poster path *)

(** C5, at index 0. A supplied index of [0] derives no poster path: the
    guard of [getThumbnailPath] tests truthiness, not presence. *)
Theorem getThumbnailPath_index_zero src title aspectRatio className isShowreel :
  getThumbnailPath
    {| src := src; title := title; aspectRatio := aspectRatio;
       className := className; isShowreel := isShowreel;
       thumbnailIndex := Some (JS.Int 0) |} = None.
Proof. reflexivity. Qed.

(** For a safe integer other than zero the path is the documented one. *)
Lemma getThumbnailPath_nonzero p z :
  thumbnailIndex p = Some (JS.Int z) -> JS.isSafeInteger z = true -> z <> 0%Z ->
  getThumbnailPath p
  = Some ("/thumbnails/" ++ NilZero.string_of_int (Z.to_int z) ++ ".jpg").
Proof.
  intros Hi _ Hz. rewrite (getThumbnailPath_truthy p (JS.Int z) Hi); [reflexivity|].
  cbn. destruct (Z.eqb_spec z 0); [contradiction | reflexivity].
Qed.

Example getThumbnailPath_3 : getThumbnailPath sampleProps = Some "/thumbnails/3.jpg".
Proof. reflexivity. Qed.

(** ** What each handler does to the latches and to thumbnailLoaded *)

(** Opens a closure into its fields, splitting on the three flags the
    handlers read from it. *)
Ltac open_closure cl :=
  let playing := fresh "playing" in
  let fullscreen := fresh "fullscreen" in
  let loaded := fresh "loaded" in
  destruct cl as [playing fullscreen ? loaded ? ? ?];
  destruct playing, fullscreen, loaded.

(** Runs a handler on an opened world, by cases on the event and on the
    ref. *)
Ltac by_cases_on_event e :=
  destruct e as [ | [|?] | | [|] | | | [] | [?|] ];
  try match goal with
      | v : option HTMLVideoElement |- _ => destruct v
      end;
  try reflexivity; try discriminate; try congruence.

Lemma dispatch_isInView_mono p cl e w :
  isInView (st w) = true -> isInView (st (exec (dispatch p cl e) w)) = true.
Proof. intros H; open_world w; open_closure cl; subst; by_cases_on_event e. Qed.

Lemma dispatch_hasInteracted_mono p cl e w :
  hasInteracted (st w) = true ->
  hasInteracted (st (exec (dispatch p cl e) w)) = true.
Proof. intros H; open_world w; open_closure cl; subst; by_cases_on_event e. Qed.

(** Only an intersecting observer entry sets [isInView]. *)
Lemma dispatch_isInView_only_intersection p cl e w :
  e <> Intersection true ->
  isInView (st (exec (dispatch p cl e) w)) = isInView (st w).
Proof. intros H; open_world w; open_closure cl; by_cases_on_event e. Qed.

(** Only the image's [load] sets [thumbnailLoaded]. *)
Lemma dispatch_thumbnailLoaded_only_load p cl e w :
  e <> ImgLoad -> thumbnailLoaded (st w) = false ->
  thumbnailLoaded (st (exec (dispatch p cl e) w)) = false.
Proof. intros H H0; open_world w; open_closure cl; subst; by_cases_on_event e. Qed.

(** Nothing reconnects the observer. *)
Lemma dispatch_observing_off p cl e w :
  observing w = false -> observing (exec (dispatch p cl e) w) = false.
Proof. intros H; open_world w; open_closure cl; subst; by_cases_on_event e. Qed.

Lemma step_isInView_mono p w e :
  isInView (st w) = true -> isInView (st (step p w e)) = true.
Proof.
  intros H. unfold step. destruct (enabled p w e); [|exact H].
  rewrite st_commit. now apply dispatch_isInView_mono.
Qed.

Lemma step_hasInteracted_mono p w e :
  hasInteracted (st w) = true -> hasInteracted (st (step p w e)) = true.
Proof.
  intros H. unfold step. destruct (enabled p w e); [|exact H].
  rewrite st_commit. now apply dispatch_hasInteracted_mono.
Qed.

Lemma run_isInView_mono p evs :
  forall w, isInView (st w) = true -> isInView (st (run p evs w)) = true.
Proof.
  induction evs as [|e evs IH]; intros w H; cbn; [exact H|].
  apply IH, step_isInView_mono, H.
Qed.

Lemma run_hasInteracted_mono p evs :
  forall w, hasInteracted (st w) = true -> hasInteracted (st (run p evs w)) = true.
Proof.
  induction evs as [|e evs IH]; intros w H; cbn; [exact H|].
  apply IH, step_hasInteracted_mono, H.
Qed.

(** C8. [isInView] and [hasInteracted] are latches: no handler, whatever
    event it serves and whatever closure it runs with, turns either flag
    from true to false, and so neither does any sequence of events. *)
Theorem latches_monotonic p w :
  (forall cl e,
      (isInView (st w) = true ->
       isInView (st (exec (dispatch p cl e) w)) = true)
      /\ (hasInteracted (st w) = true ->
          hasInteracted (st (exec (dispatch p cl e) w)) = true))
  /\ (forall evs,
      (isInView (st w) = true -> isInView (st (run p evs w)) = true)
      /\ (hasInteracted (st w) = true ->
          hasInteracted (st (run p evs w)) = true)).
Proof.
  split.
  - intros cl e; split;
      [apply dispatch_isInView_mono | apply dispatch_hasInteracted_mono].
  - intros evs; split;
      [apply run_isInView_mono | apply run_hasInteracted_mono].
Qed.

Lemma latches_monotonic_witness :
  isInView (st (run sampleProps
                  [Intersection false; Click; PlaySettled Resolved;
                   Media Pause; FullscreenChange None; ImgError]
                  idleInView)) = true
  /\ hasInteracted (st (run sampleProps
                  [Intersection false; Click; PlaySettled Resolved;
                   Media Pause; FullscreenChange None; ImgError]
                  idleInView)) = true.
Proof.
  destruct (latches_monotonic sampleProps idleInView) as [_ H].
  destruct (H [Intersection false; Click; PlaySettled Resolved;
               Media Pause; FullscreenChange None; ImgError]) as [H1 H2].
  split; [apply H1 | apply H2]; reflexivity.
Defined.

(** ** The fallback panel *)

Lemma step_thumbnailLoaded_without_index p w e :
  thumbnailIndex p = None -> thumbnailLoaded (st w) = false ->
  thumbnailLoaded (st (step p w e)) = false.
Proof.
  intros Hidx H. unfold step.
  destruct (enabled p w e) eqn:En; [|exact H].
  rewrite st_commit. apply dispatch_thumbnailLoaded_only_load; [|exact H].
  intros ->. cbn [enabled] in En. unfold view in En.
  rewrite hasImg_render, (getThumbnailPath_absent p Hidx) in En. discriminate.
Qed.

(** Without a poster index, from any world whose [thumbnailLoaded] is
    false, every sequence of events leads to a render that contains the
    fallback panel. *)
Lemma fallback_panel_without_index p w evs :
  thumbnailIndex p = None ->
  thumbnailLoaded (st w) = false ->
  hasFallbackPanel (view p (run p evs w)) = true.
Proof.
  intros Hidx. revert w.
  induction evs as [|e evs IH]; intros w H.
  - change (run p [] w) with w. unfold view.
    rewrite hasFallbackPanel_render, H, (getThumbnailPath_absent p Hidx).
    reflexivity.
  - change (run p (e :: evs) w) with (run p evs (step p w e)).
    apply IH, step_thumbnailLoaded_without_index; assumption.
Qed.

(** C7. When the poster image reports an error (which it can only do while
    it is rendered), the handler logs one warning and sets
    [thumbnailLoaded] to false, and the next render does not contain the
    fallback panel: the panel also requires that no path was derived, and
    a rendered image has one. *)
Theorem img_error_leaves_no_fallback_panel p w :
  enabled p w ImgError = true ->
  console (step p w ImgError)
  = (console w
       ++ [{| level := LogWarn;
              args := [("Thumbnail not found: " ++
                        match getThumbnailPath p with
                        | Some path => path
                        | None => "null"
                        end)%string] |}])%list
  /\ thumbnailLoaded (st (step p w ImgError)) = false
  /\ hasFallbackPanel (view p (step p w ImgError)) = false.
Proof.
  intros En. unfold step. rewrite En.
  split; [reflexivity | split; [reflexivity|]].
  cbn [enabled] in En. unfold view in *.
  rewrite hasImg_render in En. apply andb_true_iff in En as [Hpath _].
  rewrite st_commit, hasFallbackPanel_render, Hpath.
  apply andb_false_r.
Qed.

Lemma img_error_leaves_no_fallback_panel_witness :
  console (step sampleProps posterInView ImgError)
  = [{| level := LogWarn; args := ["Thumbnail not found: /thumbnails/3.jpg"] |}]
  /\ thumbnailLoaded (st (step sampleProps posterInView ImgError)) = false
  /\ hasFallbackPanel (view sampleProps (step sampleProps posterInView ImgError)) = false.
Proof.
  apply (img_error_leaves_no_fallback_panel sampleProps posterInView).
  reflexivity.
Defined.

(** ** The poster image and the visibility latch *)

Lemma step_isInView_not_intersected p w e :
  (match e with Intersection true => false | _ => true end) = true ->
  isInView (st w) = false -> isInView (st (step p w e)) = false.
Proof.
  intros He H. unfold step. destruct (enabled p w e); [|exact H].
  rewrite st_commit, dispatch_isInView_only_intersection; [exact H|].
  intros ->. discriminate.
Qed.

Lemma run_isInView_not_intersected p evs :
  forall w, neverIntersected evs = true -> isInView (st w) = false ->
            isInView (st (run p evs w)) = false.
Proof.
  induction evs as [|e evs IH]; intros w Hn H; cbn; [exact H|].
  cbn in Hn. apply andb_true_iff in Hn as [He Hn].
  apply IH; [exact Hn | now apply step_isInView_not_intersected].
Qed.

Lemma step_observing_off p w e :
  observing w = false -> observing (step p w e) = false.
Proof.
  intros H. unfold step. destruct (enabled p w e); [|exact H].
  unfold commit; cbn [observing with_videoRef].
  now apply dispatch_observing_off.
Qed.

(** C9. The poster <img> is not rendered as long as no intersecting
    observer entry has been delivered since mount; once it is rendered it
    stays rendered through every later sequence of events; and the first
    intersecting entry disconnects the observer, which nothing reconnects,
    so entries for scrolling out of view are no longer delivered (and one
    that does not intersect would change nothing). *)
Theorem poster_img_after_first_intersection p :
  (forall width evs,
      neverIntersected evs = true ->
      hasImg (view p (run p evs (mount p width))) = false)
  /\ (forall w evs,
      hasImg (view p w) = true -> hasImg (view p (run p evs w)) = true)
  /\ (forall w, observing (step p w (Intersection true)) = false)
  /\ (forall w e, observing w = false -> observing (step p w e) = false)
  /\ (forall w, observing w = true ->
                isInView (st (step p w (Intersection true))) = true).
Proof.
  split; [|split; [|split; [|split]]].
  - intros width evs Hn. unfold view.
    rewrite hasImg_render, run_isInView_not_intersected;
      [apply andb_false_r | exact Hn | reflexivity].
  - intros w evs H. unfold view in *. rewrite hasImg_render in *.
    apply andb_true_iff in H as [Hp Hv].
    rewrite Hp, run_isInView_mono; [reflexivity | exact Hv].
  - intros w. unfold step; cbn [enabled].
    destruct (observing w) eqn:Ho; [reflexivity | exact Ho].
  - intros w e. apply step_observing_off.
  - intros w Ho. unfold step; cbn [enabled]. rewrite Ho. reflexivity.
Qed.

Lemma poster_img_after_first_intersection_witness :
  hasImg (view sampleProps
            (run sampleProps [Click; Intersection false; FullscreenButtonClick]
               (mount sampleProps 1024))) = false
  /\ hasImg (view sampleProps
               (run sampleProps [Intersection false; Click; ImgError]
                  posterInView)) = true
  /\ observing (step sampleProps posterInView (Intersection false)) = false
  /\ isInView (st (step sampleProps (mount sampleProps 1024) (Intersection true))) = true.
Proof.
  destruct (poster_img_after_first_intersection sampleProps)
    as [H1 [H2 [H3 [H4 H5]]]].
  split; [|split; [|split]].
  - apply H1. reflexivity.
  - apply H2. reflexivity.
  - apply H4. reflexivity.
  - apply H5. reflexivity.
Defined.

(** ** Fullscreen *)

(** C10. After the widget has entered fullscreen (its button was clicked
    and the document reported a fullscreen element, so [isFullscreen] is
    true), a [fullscreenchange] delivered with no fullscreen element, as
    when the browser leaves fullscreen on Escape, sets [isFullscreen] to
    false. *)
Theorem fullscreen_exit_is_mirrored p w el :
  let entered :=
    step p (step p w FullscreenButtonClick) (FullscreenChange (Some el)) in
  isFullscreen (st entered) = true
  /\ isFullscreen (st (step p entered (FullscreenChange None))) = false.
Proof. split; reflexivity. Qed.

(** The button asks the platform to enter fullscreen when the widget is
    not fullscreen, and to leave it otherwise; the flag itself only moves
    with [fullscreenchange]. *)
Lemma toggleFullscreen_calls p w :
  calls (step p w FullscreenButtonClick)
  = (calls w ++ [if isFullscreen (st w) then ExitFullscreen
                 else RequestFullscreen])%list
  /\ st (step p w FullscreenButtonClick) = st w.
Proof.
  unfold step; cbn [enabled dispatch]. unfold toggleFullscreen.
  destruct (isFullscreen (st w)); split; reflexivity.
Qed.

(** * Further properties of the handlers *)

(** Committing, computed: the ref follows [hasInteracted]. *)
Lemma commit_eq p w :
  commit p w
  = with_videoRef (if hasInteracted (st w) then Some VideoElement else None) w.
Proof. unfold commit, view. now rewrite hasVideo_render. Qed.

(** Unfolds a run over an explicit event list into its handlers. *)
Ltac step_through :=
  unfold run; cbn [fold_left]; unfold step; cbn [enabled];
  rewrite ?commit_eq.

(** ** What a click asks of the <video> element *)

(** X1. A click handled with the ref bound makes these calls, in this
    order and no others: when the closure's [videoLoaded] is false, the
    assignment of [src] and [load()] (from [loadVideo]); then [pause()] if
    the closure's [isPlaying] is true and [play()] if it is false. *)
Theorem handleClick_calls p cl w :
  videoRef w <> None ->
  calls (exec (handleClick_start p cl) w)
  = (calls w
       ++ (if videoLoaded cl then [] else [VideoSetSrc (src p); VideoLoad])
       ++ [if isPlaying cl then VideoPause else VideoPlay])%list.
Proof.
  intros Href. open_world w.
  destruct cl as [playing ? ? loaded ? ? ?].
  destruct videoRef0 as [v|]; [|congruence].
  destruct loaded, playing; cbn; rewrite <- ?app_assoc; reflexivity.
Qed.

Lemma handleClick_calls_witness :
  calls (exec (handleClick_start sampleProps (st idleMounted)) idleMounted)
  = [VideoSetSrc "/videos/reel.mp4"; VideoLoad; VideoPlay].
Proof.
  apply (handleClick_calls sampleProps (st idleMounted) idleMounted).
  discriminate.
Defined.



(** X3. Nothing guards against a second click while the first [play()] is
    pending: with no frame loaded yet, two clicks in a row assign [src],
    call [load()] and call [play()] twice over, and two promises are
    pending afterwards. *)
Theorem double_click_reloads p w :
  committed p w ->
  videoRef w <> None ->
  isPlaying (st w) = false ->
  videoLoaded (st w) = false ->
  calls (run p [Click; Click] w)
  = (calls w ++ [VideoSetSrc (src p); VideoLoad; VideoPlay;
                 VideoSetSrc (src p); VideoLoad; VideoPlay])%list
  /\ awaitingPlay (run p [Click; Click] w) = S (S (awaitingPlay w)).
Proof.
  intros Hc Href Hplay Hload.
  pose proof (committed_videoRef p w Hc) as Hv.
  destruct (hasInteracted (st w)) eqn:Hi; [|congruence].
  open_world w. subst. step_through.
  split; [|reflexivity].
  cbn. rewrite <- !app_assoc. reflexivity.
Qed.

Lemma double_click_reloads_witness :
  calls (run sampleProps [Click; Click] idleMounted)
  = [VideoSetSrc "/videos/reel.mp4"; VideoLoad; VideoPlay;
     VideoSetSrc "/videos/reel.mp4"; VideoLoad; VideoPlay]
  /\ awaitingPlay (run sampleProps [Click; Click] idleMounted) = 2.
Proof.
  apply (double_click_reloads sampleProps idleMounted); reflexivity || discriminate.
Defined.

(** X4. Play, then pause: on the mounted widget a click whose [play()]
    resolves, followed by a second click, ends with [pause()] as the last
    call and with the state the widget started from, [isLoading] cleared. *)
Theorem play_pause_round_trip p w :
  committed p w ->
  videoRef w <> None ->
  isPlaying (st w) = false ->
  st (run p [Click; PlaySettled Resolved; Click] w) = with_isLoading false (st w)
  /\ last (calls (run p [Click; PlaySettled Resolved; Click] w)) VideoPlay
     = VideoPause
  /\ awaitingPlay (run p [Click; PlaySettled Resolved; Click] w) = awaitingPlay w.
Proof.
  intros Hc Href Hplay.
  pose proof (committed_videoRef p w Hc) as Hv.
  destruct (hasInteracted (st w)) eqn:Hi; [|congruence].
  open_world w. subst.
  step_through.
  destruct videoLoaded0; cbn; rewrite ?last_last; repeat split.
Qed.

Lemma play_pause_round_trip_witness :
  st (run sampleProps [Click; PlaySettled Resolved; Click] idleMounted)
  = with_isLoading false (st idleMounted)
  /\ last (calls (run sampleProps [Click; PlaySettled Resolved; Click] idleMounted))
       VideoPlay = VideoPause
  /\ awaitingPlay (run sampleProps [Click; PlaySettled Resolved; Click] idleMounted)
     = awaitingPlay idleMounted.
Proof.
  apply (play_pause_round_trip sampleProps idleMounted); reflexivity || discriminate.
Defined.

(** ** The widget as mounted never starts a video *)

Lemma step_dormant p w e : dormant w -> dormant (step p w e).
Proof.
  intros D. unfold step. destruct (enabled p w e) eqn:En; [|exact D].
  rewrite commit_eq.
  destruct D as (Hi & Hr & Hp & Hv & Hl & Ha & Hc).
  destruct e as [ | r | | i | | | m | el]; cbn [enabled] in En;
    unfold view in En; rewrite ?hasVideo_render in En;
    open_world w; subst; try discriminate; unfold dormant; cbn.
  - repeat split; assumption.
  - destruct isFullscreen0; cbn; rewrite forallb_app, Hc; repeat split.
  - destruct i; cbn; rewrite ?forallb_app, ?Hc; repeat split.
  - repeat split; assumption.
  - repeat split; assumption.
  - repeat split; assumption.
Qed.

Lemma mount_dormant p width : dormant (mount p width).
Proof. unfold mount. rewrite commit_eq. repeat split. Qed.




(** X5. In every world reachable from mount nothing of the video has
    happened: [isPlaying], [isLoading] and [videoLoaded] are false, no
    [play()] is pending, and the component has made no call on a <video>
    element (no [src] assignment, [load()], [play()] or [pause()]). *)
Theorem mounted_widget_never_plays p w :
  reachable p w ->
  isPlaying (st w) = false
  /\ isLoading (st w) = false
  /\ videoLoaded (st w) = false
  /\ awaitingPlay w = 0
  /\ forallb (fun c => negb (isVideoCall c)) (calls w) = true.
Proof.
  intros Hr.
  assert (D : dormant w).
  { induction Hr as [width | w e _ IH _];
      [apply mount_dormant | apply step_dormant, IH]. }
  destruct D as (_ & _ & Hp & Hv & Hl & Ha & Hc). auto.
Qed.

Lemma mounted_widget_never_plays_witness :
  isPlaying (st (run sampleProps [Intersection true; Click; ImgLoad; Click]
                   (mount sampleProps 1024))) = false
  /\ calls (run sampleProps [Intersection true; Click; ImgLoad; Click]
              (mount sampleProps 1024)) = [ObserverDisconnect].
Proof.
  destruct (mounted_widget_never_plays sampleProps
              (run sampleProps [Intersection true; Click; ImgLoad; Click]
                 (mount sampleProps 1024))) as (Hp & _).
  - apply reachable_run, reachable_mount.
  - split; [exact Hp | reflexivity].
Defined.

(** ** Fullscreen *)

Lemma dispatch_isFullscreen p cl e w :
  isFullscreen (st (exec (dispatch p cl e) w))
  = match e with
    | FullscreenChange el => JS.notnot el
    | _ => isFullscreen (st w)
    end.
Proof. open_world w; open_closure cl; by_cases_on_event e. Qed.

Lemma step_isFullscreen p w e :
  isFullscreen (st (step p w e))
  = match e with
    | FullscreenChange el => JS.notnot el
    | _ => isFullscreen (st w)
    end.
Proof.
  unfold step. destruct (enabled p w e) eqn:En.
  - rewrite st_commit. apply dispatch_isFullscreen.
  - destruct e; try reflexivity; discriminate.
Qed.

(** X6. [isFullscreen] is written by the [fullscreenchange] listener and
    by nothing else: after any sequence of events it says whether the
    document had a fullscreen element at the last [fullscreenchange] of
    the sequence, and it is unchanged if there was none.  In particular the
    fullscreen button never moves the flag by itself. *)
Theorem isFullscreen_mirrors_last_change p evs :
  forall w,
    isFullscreen (st (run p evs w))
    = match lastFullscreenChange evs with
      | Some el => JS.notnot el
      | None => isFullscreen (st w)
      end.
Proof.
  induction evs as [|e evs IH]; intros w; [reflexivity|].
  change (run p (e :: evs) w) with (run p evs (step p w e)).
  rewrite IH. cbn [lastFullscreenChange].
  destruct (lastFullscreenChange evs); [reflexivity|].
  rewrite step_isFullscreen. destruct e; reflexivity.
Qed.

(** X7. The listener does not look at which element is fullscreen. When
    some other element of the page enters fullscreen, the widget takes
    itself to be fullscreen, renders its fullscreen layout, and its button
    then calls [document.exitFullscreen()]. *)
Theorem foreign_fullscreen_is_taken_for_own p w :
  isFullscreen (st (step p w (FullscreenChange (Some OtherElement)))) = true
  /\ fullscreenLayout (view p (step p w (FullscreenChange (Some OtherElement)))) = true
  /\ calls (run p [FullscreenChange (Some OtherElement); FullscreenButtonClick] w)
     = (calls w ++ [ExitFullscreen])%list.
Proof. repeat split. Qed.

(** ** The observer *)

Lemma dispatch_observer_untouched p cl e w :
  e <> Intersection true ->
  observing (exec (dispatch p cl e) w) = observing w
  /\ disconnects (exec (dispatch p cl e) w) = disconnects w.
Proof.
  intros He. unfold disconnects.
  open_world w; open_closure cl; by_cases_on_event e;
    cbn; rewrite ?filter_app; cbn; rewrite ?app_nil_r; split; reflexivity.
Qed.

(** X8. From mount on, the observer is connected exactly as long as
    [isInView] is false, [disconnect()] has been called once if [isInView]
    is true and never if it is false, and an observer entry that does not
    intersect leaves the whole world as it was. *)
Theorem observer_connected_until_in_view p w :
  reachable p w ->
  observing w = negb (isInView (st w))
  /\ disconnects w = (if isInView (st w) then 1 else 0)
  /\ step p w (Intersection false) = w.
Proof.
  intros Hr.
  assert (H : observing w = negb (isInView (st w))
              /\ disconnects w = (if isInView (st w) then 1 else 0)).
  { induction Hr as [width | w e Hr [IHo IHd] En].
    - unfold mount. rewrite commit_eq. split; reflexivity.
    - unfold step. rewrite En, commit_eq.
      change (observing (with_videoRef ?r ?x)) with (observing x).
      change (disconnects (with_videoRef ?r ?x)) with (disconnects x).
      change (st (with_videoRef ?r ?x)) with (st x).
      assert (Hcase : e = Intersection true \/ e <> Intersection true).
      { destruct e as [ | r | | [|] | | | m | el];
          (left; reflexivity) || (right; discriminate). }
      destruct Hcase as [-> | Hne].
      + cbn [enabled] in En. rewrite En in IHo.
        symmetry in IHo. apply negb_true_iff in IHo.
        unfold disconnects in *. open_world w. subst. cbn.
        rewrite filter_app, length_app, IHd. split; reflexivity.
      + destruct (dispatch_observer_untouched p (st w) e w Hne) as [-> ->].
        rewrite dispatch_isInView_only_intersection by exact Hne.
        split; assumption. }
  destruct H as [Ho Hd]. split; [exact Ho | split; [exact Hd|]].
  unfold step; cbn [enabled]. destruct (observing w); [|reflexivity].
  apply (reachable_committed p w Hr).
Qed.

Lemma observer_connected_until_in_view_witness :
  observing posterInView = false
  /\ disconnects posterInView = 1
  /\ step sampleProps (mount sampleProps 1024) (Intersection false)
     = mount sampleProps 1024.
Proof.
  destruct (observer_connected_until_in_view sampleProps posterInView)
    as (Ho & Hd & _).
  { apply reachable_step; [apply reachable_mount | reflexivity]. }
  destruct (observer_connected_until_in_view sampleProps (mount sampleProps 1024))
    as (_ & _ & Hs).
  { apply reachable_mount. }
  split; [exact Ho | split; [exact Hd | exact Hs]].
Defined.

(** ** thumbnailLoaded and the panels *)

Lemma step_hasImg_mono p w e :
  hasImg (view p w) = true -> hasImg (view p (step p w e)) = true.
Proof.
  unfold view. rewrite !hasImg_render. intros H.
  apply andb_true_iff in H as [Hp Hv].
  now rewrite Hp, step_isInView_mono.
Qed.

Lemma step_thumbnailLoaded_needs_img p w e :
  (thumbnailLoaded (st w) = true -> hasImg (view p w) = true) ->
  thumbnailLoaded (st (step p w e)) = true ->
  hasImg (view p (step p w e)) = true.
Proof.
  intros Inv Hl. apply step_hasImg_mono.
  unfold step in Hl. destruct (enabled p w e) eqn:En; [|auto].
  rewrite st_commit in Hl.
  assert (Hcase : e = ImgLoad \/ e <> ImgLoad).
  { destruct e; (left; reflexivity) || (right; discriminate). }
  destruct Hcase as [-> | Hne]; [exact En|].
  apply Inv. destruct (thumbnailLoaded (st w)) eqn:Hw; [reflexivity|].
  rewrite (dispatch_thumbnailLoaded_only_load p (st w) e w Hne Hw) in Hl.
  discriminate.
Qed.

(** X9. [thumbnailLoaded] is true only where the poster <img> is
    rendered: if that holds of a world (it does at mount), it holds after
    every sequence of events, because only the image's own [load] event
    sets the flag and the image, once rendered, stays. *)
Theorem thumbnailLoaded_needs_img p evs :
  forall w,
    (thumbnailLoaded (st w) = true -> hasImg (view p w) = true) ->
    thumbnailLoaded (st (run p evs w)) = true ->
    hasImg (view p (run p evs w)) = true.
Proof.
  induction evs as [|e evs IH]; intros w Inv; [exact Inv|].
  change (run p (e :: evs) w) with (run p evs (step p w e)).
  apply IH. now apply step_thumbnailLoaded_needs_img.
Qed.

Lemma thumbnailLoaded_needs_img_witness :
  hasImg (view sampleProps
            (run sampleProps [Intersection true; ImgLoad; Click]
               (mount sampleProps 1024))) = true.
Proof.
  apply (thumbnailLoaded_needs_img sampleProps
           [Intersection true; ImgLoad; Click] (mount sampleProps 1024)).
  - discriminate.
  - reflexivity.
Defined.

(** X10. In every world reachable from mount the fallback panel is
    rendered exactly when no poster path was derived: the value of
    [thumbnailLoaded] never decides whether the panel shows. *)
Theorem fallback_panel_ignores_thumbnailLoaded p w :
  reachable p w ->
  hasFallbackPanel (view p w) = negb (JS.notnot (getThumbnailPath p)).
Proof.
  intros Hr.
  assert (Inv : thumbnailLoaded (st w) = true -> hasImg (view p w) = true).
  { induction Hr as [width | w e _ IH _]; [discriminate|].
    now apply step_thumbnailLoaded_needs_img. }
  unfold view in *. rewrite hasFallbackPanel_render.
  rewrite hasImg_render in Inv. rewrite <- truthy_thumbnailPath.
  destruct (JS.truthy_str (getThumbnailPath p)); [apply andb_false_r|].
  destruct (thumbnailLoaded (st w)); [|reflexivity].
  discriminate (Inv eq_refl).
Qed.

Lemma fallback_panel_ignores_thumbnailLoaded_witness :
  hasFallbackPanel (view sampleProps (step sampleProps posterInView ImgLoad)) = false
  /\ hasFallbackPanel (view noPosterProps (mount noPosterProps 1024)) = true.
Proof.
  split.
  - apply (fallback_panel_ignores_thumbnailLoaded sampleProps
             (step sampleProps posterInView ImgLoad)).
    apply reachable_step; [|reflexivity].
    apply reachable_step; [apply reachable_mount | reflexivity].
  - apply (fallback_panel_ignores_thumbnailLoaded noPosterProps
             (mount noPosterProps 1024)).
    apply reachable_mount.
Defined.

(** X11. The poster <img> and the fallback panel are never rendered
    together, in any state: the image needs a derived path and the panel
    needs there to be none. *)
Theorem poster_and_panel_exclusive p mobile s :
  hasImg (render p mobile s) && hasFallbackPanel (render p mobile s) = false.
Proof.
  rewrite hasImg_render, hasFallbackPanel_render.
  destruct (JS.truthy_str (getThumbnailPath p)), (isInView s),
    (thumbnailLoaded s); reflexivity.
Qed.

(** ** The rendered children *)

Lemma in_when (c : bool) (n m : Node) : In m (when c n) -> c = true /\ m = n.
Proof. destruct c; cbn; [intros [<-|[]]; auto | intros []]. Qed.

(** Splits membership in the children of a render into the seven places
    a child can come from. *)
Ltac in_children H :=
  unfold render in H; cbn [children] in H;
  repeat (apply in_app_or in H; destruct H as [H|H]);
  try (apply in_when in H; destruct H as [? H]);
  cbn [In] in H; repeat (destruct H as [H|H]); try contradiction;
  try discriminate H.

Lemma img_child p mobile s url alt fit opacity :
  In (Img url alt fit opacity) (children (render p mobile s)) ->
  getThumbnailPath p = Some url
  /\ alt = title p ++ " thumbnail"
  /\ fit = objectFit s
  /\ opacity = (if isPlaying s && videoLoaded s then Opacity0 else Opacity100).
Proof.
  intros H. in_children H.
  injection H as -> -> -> ->.
  apply andb_true_iff in H0 as [Hp _].
  destruct (getThumbnailPath p); [auto | discriminate].
Qed.

Lemma video_child p mobile s fit opacity loop :
  In (Video fit opacity loop) (children (render p mobile s)) ->
  fit = objectFit s
  /\ opacity = (if videoLoaded s && isPlaying s then Opacity100 else Opacity0)
  /\ loop = isShowreel p.
Proof. intros H. in_children H. injection H as -> -> ->. auto. Qed.

(** X12. Poster and video cross-fade: whenever a render contains both the
    <img> and the <video>, exactly one of them is opaque (the video when
    a frame is loaded and it is playing, the poster otherwise) and both
    use the same object-fit. *)
Theorem poster_video_crossfade p mobile s url alt fit opacity fit' opacity' loop :
  In (Img url alt fit opacity) (children (render p mobile s)) ->
  In (Video fit' opacity' loop) (children (render p mobile s)) ->
  fit = fit'
  /\ (opacity = Opacity0 <-> opacity' = Opacity100)
  /\ (opacity' = Opacity100 <-> videoLoaded s && isPlaying s = true).
Proof.
  intros Hi Hv.
  apply img_child in Hi as (_ & _ & -> & ->).
  apply video_child in Hv as (-> & -> & _).
  destruct (isPlaying s), (videoLoaded s); cbn;
    repeat split; intros; congruence.
Qed.

Lemma poster_video_crossfade_witness :
  ObjectCover = ObjectCover
  /\ (Opacity0 = Opacity0 <-> Opacity100 = Opacity100)
  /\ (Opacity100 = Opacity100
      <-> videoLoaded (st (with_st (with_isInView true) playingMounted))
          && isPlaying (st (with_st (with_isInView true) playingMounted)) = true).
Proof.
  apply (poster_video_crossfade sampleProps false
           (st (with_st (with_isInView true) playingMounted))
           "/thumbnails/3.jpg" "Reel thumbnail" ObjectCover Opacity0
           ObjectCover Opacity100 false).
  - cbn. left. reflexivity.
  - cbn. right. left. reflexivity.
Defined.

(** ** The poster path *)

(** X13. [getThumbnailPath] returns [null] in exactly three cases: no
    index was supplied, the index is zero, or the index is [NaN]. *)
Theorem no_poster_path_iff p :
  getThumbnailPath p = None
  <-> thumbnailIndex p = None
      \/ thumbnailIndex p = Some (JS.Int 0)
      \/ thumbnailIndex p = Some JS.NaN.
Proof.
  unfold getThumbnailPath.
  destruct (thumbnailIndex p) as [[z | | neg]|]; cbn.
  - destruct (Z.eqb_spec z 0) as [-> | Hz]; cbn; split; auto.
    + discriminate.
    + intros [H | [H | H]]; try discriminate. congruence.
  - split; auto.
  - split; [discriminate | intros [H | [H | H]]; discriminate].
  - split; auto.
Qed.

Lemma length_append (a b : string) :
  String.length (a ++ b) = String.length a + String.length b.
Proof. induction a as [|c a IH]; cbn; [reflexivity | now rewrite IH]. Qed.

Lemma append_same_suffix (a b s : string) : a ++ s = b ++ s -> a = b.
Proof.
  revert b. induction a as [|c a IH]; intros [|d b] H; cbn in H.
  - reflexivity.
  - apply (f_equal String.length) in H. cbn in H.
    rewrite length_append in H. lia.
  - apply (f_equal String.length) in H. cbn in H.
    rewrite length_append in H. lia.
  - injection H as -> H. f_equal. now apply IH.
Qed.

Lemma to_int_printable (z : Z) :
  Z.to_int z <> Decimal.Pos Decimal.Nil /\ Z.to_int z <> Decimal.Neg Decimal.Nil.
Proof.
  destruct z as [|q|q]; cbn; split; try discriminate;
    intros [= H]; exact (DecimalPos.Unsigned.to_uint_nonnil q H).
Qed.

Lemma toString_Int_injective (a b : Z) :
  JS.toString (JS.Int a) = JS.toString (JS.Int b) -> a = b.
Proof.
  cbn. intros H.
  apply (f_equal NilZero.int_of_string) in H.
  destruct (to_int_printable a) as [Ha1 Ha2].
  destruct (to_int_printable b) as [Hb1 Hb2].
  rewrite !NilZero.isi in H by assumption.
  injection H as H.
  rewrite <- (DecimalZ.of_to a), <- (DecimalZ.of_to b). now rewrite H.
Qed.

(** X14. Distinct safe-integer indices never share a poster: if two
    widgets whose indices are safe integers derive the same path, one of
    them from a non-zero index, the indices are equal. *)
Theorem poster_path_injective p q a b :
  thumbnailIndex p = Some (JS.Int a) ->
  thumbnailIndex q = Some (JS.Int b) ->
  JS.isSafeInteger a = true ->
  JS.isSafeInteger b = true ->
  a <> 0%Z ->
  getThumbnailPath p = getThumbnailPath q ->
  a = b.
Proof.
  intros Hp Hq Sa _ Ha H.
  rewrite (getThumbnailPath_nonzero p a Hp Sa Ha) in H.
  unfold getThumbnailPath in H. rewrite Hq in H.
  destruct (JS.truthy (JS.Int b)); [|discriminate].
  injection H as H.
  apply toString_Int_injective.
  apply (append_same_suffix _ _ ".jpg"). exact H.
Qed.

Lemma poster_path_injective_witness : 3%Z = 3%Z.
Proof.
  apply (poster_path_injective sampleProps sampleProps 3 3);
    reflexivity || discriminate.
Defined.

(** ** Hover affordances and sizes *)

Lemma play_button_child p mobile s size pulse tint hidden glyph gsize :
  In (PlayButton size pulse tint hidden glyph gsize)
     (children (render p mobile s)) ->
  size = playButtonSize p s
  /\ pulse = isLoading s
  /\ tint = negb (isLoading s) && negb mobile
  /\ hidden = isPlaying s && negb (isLoading s)
  /\ glyph = (if isLoading s then SpinnerGlyph
              else if isPlaying s then PauseGlyph else PlayGlyph)
  /\ gsize = (if isLoading s then "w-6 h-6" else glyphSize p s).
Proof.
  intros H. in_children H. injection H as <- <- <- <- <- <-.
  repeat split.
Qed.



(** X16. The size class of a rendered play button tells the aspect ratio
    and the fullscreen state apart (four combinations, four classes).  So
    does the size class of the pause or play icon inside it; the loading
    spinner has the one size [w-6 h-6] whatever the layout. *)
Theorem play_button_sizes_tell_layout
    p q mobile mobile' s t
    size pulse tint hidden glyph gsize
    size' pulse' tint' hidden' glyph' gsize' :
  In (PlayButton size pulse tint hidden glyph gsize)
     (children (render p mobile s)) ->
  In (PlayButton size' pulse' tint' hidden' glyph' gsize')
     (children (render q mobile' t)) ->
  (size = size' ->
   aspectRatio p = aspectRatio q /\ isFullscreen s = isFullscreen t)
  /\ (glyph <> SpinnerGlyph -> glyph' <> SpinnerGlyph -> gsize = gsize' ->
      aspectRatio p = aspectRatio q /\ isFullscreen s = isFullscreen t)
  /\ (glyph = SpinnerGlyph -> gsize = "w-6 h-6").
Proof.
  intros H H'.
  apply play_button_child in H as (-> & _ & _ & _ & -> & ->).
  apply play_button_child in H' as (-> & _ & _ & _ & -> & ->).
  unfold playButtonSize, glyphSize.
  destruct (isLoading s), (isLoading t), (isPlaying s), (isPlaying t),
    (aspectRatio p), (aspectRatio q), (isFullscreen s), (isFullscreen t);
    (split; [|split]); intros; try congruence; try discriminate;
    split; reflexivity.
Qed.

Lemma play_button_sizes_tell_layout_witness :
  ("w-16 h-16" = "w-16 h-16" ->
   aspectRatio sampleProps = aspectRatio noPosterProps
   /\ isFullscreen (st playingMounted) = isFullscreen (st idleMounted))
  /\ (PauseGlyph <> SpinnerGlyph -> PlayGlyph <> SpinnerGlyph ->
      "w-6 h-6" = "w-6 h-6" ->
      aspectRatio sampleProps = aspectRatio noPosterProps
      /\ isFullscreen (st playingMounted) = isFullscreen (st idleMounted))
  /\ (PauseGlyph = SpinnerGlyph -> "w-6 h-6" = "w-6 h-6").
Proof.
  apply (play_button_sizes_tell_layout sampleProps noPosterProps false true
           (st playingMounted) (st idleMounted)
           "w-16 h-16" false true true PauseGlyph "w-6 h-6"
           "w-16 h-16" false false false PlayGlyph "w-6 h-6").
  - cbn. right. left. reflexivity.
  - cbn. right. right. left. reflexivity.
Defined.

(** ** The console *)

Lemma dispatch_console p cl e w :
  console (exec (dispatch p cl e) w)
  = (console w ++
     match e with
     | PlaySettled (Rejected error) =>
         [{| level := LogError; args := ["Error playing video:"; error] |}]
     | Media MediaError =>
         [{| level := LogError; args := ["Video failed to load:"; src p] |}]
     | ImgError =>
         [{| level := LogWarn;
             args := [("Thumbnail not found: " ++
                       match getThumbnailPath p with
                       | Some path => path
                       | None => "null"
                       end)%string] |}]
     | _ => []
     end)%list.
Proof.
  open_world w; open_closure cl; by_cases_on_event e;
    cbn; rewrite ?app_nil_r; reflexivity.
Qed.

(** X17. The component writes to the console on three occasions only,
    one entry each: a rejected [play()] logs the error ["Error playing
    video:"] with the rejection, a media error logs the error ["Video
    failed to load:"] with [src], and a poster load error logs the warning
    ["Thumbnail not found: "] followed by the path.  Every other event,
    and every event that cannot be delivered, leaves the console as it
    was; no event removes an entry. *)
Theorem console_written_on_errors_only p w e :
  console (step p w e)
  = (console w ++
     if enabled p w e then
       match e with
       | PlaySettled (Rejected error) =>
           [{| level := LogError; args := ["Error playing video:"; error] |}]
       | Media MediaError =>
           [{| level := LogError; args := ["Video failed to load:"; src p] |}]
       | ImgError =>
           [{| level := LogWarn;
               args := [("Thumbnail not found: " ++
                         match getThumbnailPath p with
                         | Some path => path
                         | None => "null"
                         end)%string] |}]
       | _ => []
       end
     else [])%list
  /\ (logsToConsole e = false -> console (step p w e) = console w).
Proof.
  unfold step. destruct (enabled p w e).
  - change (console (commit p ?x)) with (console x).
    rewrite dispatch_console. split; [reflexivity|].
    intros Hl. destruct e as [ | [|?] | | | | | [] | ]; cbn in Hl;
      try discriminate; apply app_nil_r.
  - split; [now rewrite app_nil_r | reflexivity].
Qed.

Lemma console_written_on_errors_only_witness :
  console (step sampleProps idleMounted Click) = console idleMounted.
Proof.
  destruct (console_written_on_errors_only sampleProps idleMounted Click)
    as [_ H].
  apply H. reflexivity.
Defined.

(** ** The <video> element over time *)

(** X18. Once the <video> element is mounted it is never unmounted: from a
    committed world with the ref bound, the ref is bound and the element
    rendered after every sequence of events. *)
Theorem video_stays_mounted p w evs :
  committed p w ->
  videoRef w <> None ->
  videoRef (run p evs w) = Some VideoElement
  /\ hasVideo (view p (run p evs w)) = true.
Proof.
  intros Hc Href.
  assert (Hi : hasInteracted (st w) = true).
  { rewrite (committed_videoRef p w Hc) in Href.
    destruct (hasInteracted (st w)); [reflexivity | congruence]. }
  pose proof (run_hasInteracted_mono p evs w Hi) as Hi'.
  rewrite (committed_videoRef p _ (run_committed p evs w Hc)).
  unfold view. rewrite hasVideo_render, Hi'. split; reflexivity.
Qed.

Lemma video_stays_mounted_witness :
  videoRef (run sampleProps playbackStarts idleMounted) = Some VideoElement
  /\ hasVideo (view sampleProps (run sampleProps playbackStarts idleMounted)) = true.
Proof.
  apply (video_stays_mounted sampleProps idleMounted playbackStarts).
  - reflexivity.
  - discriminate.
Defined.

Lemma dispatch_videoLoaded p cl e w :
  videoLoaded (st (exec (dispatch p cl e) w))
  = match e with
    | Media LoadedData => true
    | _ => videoLoaded (st w)
    end.
Proof. open_world w; open_closure cl; by_cases_on_event e. Qed.

(** X19. [videoLoaded] is never reset, and it becomes true only under
    [hasInteracted]: if a world has [hasInteracted] true wherever it has
    [videoLoaded] true (as at mount), so has every world a sequence of
    events leads to. *)
Theorem videoLoaded_latched_after_interaction p evs :
  forall w,
    (videoLoaded (st w) = true -> hasInteracted (st w) = true) ->
    (videoLoaded (st w) = true -> videoLoaded (st (run p evs w)) = true)
    /\ (videoLoaded (st (run p evs w)) = true ->
        hasInteracted (st (run p evs w)) = true).
Proof.
  induction evs as [|e evs IH]; intros w Inv; [split; auto|].
  change (run p (e :: evs) w) with (run p evs (step p w e)).
  assert (Hmono : videoLoaded (st w) = true ->
                  videoLoaded (st (step p w e)) = true).
  { intros H. unfold step. destruct (enabled p w e); [|exact H].
    rewrite st_commit, dispatch_videoLoaded.
    destruct e as [ | | | | | | [] | ]; auto. }
  assert (Inv' : videoLoaded (st (step p w e)) = true ->
                 hasInteracted (st (step p w e)) = true).
  { unfold step. destruct (enabled p w e) eqn:En; [|exact Inv].
    rewrite !st_commit, dispatch_videoLoaded. intros H.
    assert (Hi : hasInteracted (st w) = true).
    { destruct e as [ | | | | | | [] | ]; auto.
      cbn [enabled] in En. unfold view in En.
      now rewrite hasVideo_render in En. }
    now apply dispatch_hasInteracted_mono. }
  destruct (IH (step p w e) Inv') as [IH1 IH2]. split; auto.
Qed.

Lemma videoLoaded_latched_after_interaction_witness :
  videoLoaded (st (run sampleProps [Media LoadedData; Click; Media Pause] idleMounted)) = true
  /\ hasInteracted (st (run sampleProps [Media LoadedData; Click; Media Pause] idleMounted)) = true.
Proof.
  destruct (videoLoaded_latched_after_interaction sampleProps
              [Media Pause] (run sampleProps [Media LoadedData; Click] idleMounted))
    as [H1 H2].
  - reflexivity.
  - split; [apply H1 | apply H2, H1]; reflexivity.
Defined.

(** ** The play button *)

(** X20. The play button's classes agree with the glyph it shows: it
    pulses exactly when it shows the spinner, it is hidden until hover
    exactly when it shows the pause glyph, and it shows the play glyph
    exactly when the widget is neither loading nor playing. *)
Theorem play_button_matches_glyph p mobile s size pulse tint hidden glyph gsize :
  In (PlayButton size pulse tint hidden glyph gsize)
     (children (render p mobile s)) ->
  (pulse = true <-> glyph = SpinnerGlyph)
  /\ (hidden = true <-> glyph = PauseGlyph)
  /\ (glyph = PlayGlyph <-> isLoading s = false /\ isPlaying s = false).
Proof.
  intros H. in_children H. injection H as _ <- _ <- <- _.
  destruct (isLoading s), (isPlaying s); cbn;
    repeat split; intros; try congruence; intuition congruence.
Qed.

Lemma play_button_matches_glyph_witness :
  (false = true <-> PauseGlyph = SpinnerGlyph)
  /\ (true = true <-> PauseGlyph = PauseGlyph)
  /\ (PauseGlyph = PlayGlyph
      <-> isLoading (st playingMounted) = false
          /\ isPlaying (st playingMounted) = false).
Proof.
  apply (play_button_matches_glyph sampleProps false (st playingMounted)
           "w-16 h-16" false true true PauseGlyph "w-6 h-6").
  cbn. right. left. reflexivity.
Defined.
